(** * The flashcard generators of the-notewriter's parser test data

    A shallow embedding of the two Python scripts
    [internal/core/testdata/TestParser/en-irregular-verbs.py] and
    [internal/core/testdata/TestParser/expression.py]: the [slugify]
    function they share, their record tables, the f-string each one prints
    per record and the [for] loop that prints them. *)

From Stdlib Require Import String Ascii NArith Bool List Lia.
Import ListNotations.

Local Open Scope N_scope.
Local Open Scope list_scope.

(** ** Text

    A Python [str] is a sequence of Unicode code points; the bytes produced by
    [encode] are numbers below 256.  Both are lists of [N]. *)

Definition codepoint := N.
Definition text := list codepoint.

(** An ASCII literal of the scripts, one code point per character. *)
Definition str (s : string) : text := map N_of_ascii (list_ascii_of_string s).
Arguments str s%_string.

Definition nl : text := [10].
Definition dquote : text := [34].
Definition hyphen : codepoint := 45.
Definition underscore : codepoint := 95.

Definition is_ascii (c : codepoint) : bool := c <? 128.
Definition is_upper (c : codepoint) : bool := (65 <=? c) && (c <=? 90).
Definition is_lower (c : codepoint) : bool := (97 <=? c) && (c <=? 122).
Definition is_digit (c : codepoint) : bool := (48 <=? c) && (c <=? 57).

(** ** The stages of [slugify]

    [[
    def slugify(value):
        value = unicodedata.normalize('NFKD', value).encode('ascii', 'ignore').decode('ascii').lower()
        return re.sub(r'[\W_]+', '-', value)
    ]] *)

(** [.encode('ascii', 'ignore')]: code points outside ASCII are skipped,
    the others are encoded as the byte of the same value. *)
Definition encode_ascii_ignore (s : text) : list N := filter is_ascii s.

(** [.decode('ascii')]: a byte below 128 is the code point of the same value.
    (A larger byte raises [UnicodeDecodeError]; [encode_ascii_ignore] emits
    none, see [encode_ascii_ignore_range].) *)
Definition decode_ascii (b : list N) : text := b.

(** [.lower()] on an ASCII string: [A-Z] go to [a-z], nothing else moves. *)
Definition lower_char (c : codepoint) : codepoint :=
  if is_upper c then c + 32 else c.
Definition lower (s : text) : text := map lower_char s.

(** [\w] on an ASCII subject: letters, digits and the underscore. *)
Definition is_word (c : codepoint) : bool :=
  is_upper c || is_lower c || is_digit c || (c =? underscore).

(** The character class [[\W_]]. *)
Definition is_nonword_or_underscore (c : codepoint) : bool :=
  negb (is_word c) || (c =? underscore).

(** [re.sub(r'[\W_]+', '-', value)], scanning left to right: [in_run] tells
    whether the previous character belonged to the match being replaced, so
    that a maximal run of class characters yields one hyphen. *)
Fixpoint re_sub_scan (in_run : bool) (s : text) : text :=
  match s with
  | [] => []
  | c :: rest =>
      if is_nonword_or_underscore c
      then (if in_run then re_sub_scan true rest
            else hyphen :: re_sub_scan true rest)
      else c :: re_sub_scan false rest
  end.

Definition re_sub_nonword (s : text) : text := re_sub_scan false s.

(** ** Records and tables *)

Record IrregularVerb := mkVerb {
  base : text;
  past_tense : text;
  past_participle : text
}.

Record Expression := mkExpression {
  en_en : text;
  fr_fr : text
}.

Definition IRREGULAR_VERBS : list IrregularVerb :=
  [ mkVerb (str "be") (str "was/were") (str "been");
    mkVerb (str "have") (str "had") (str "had") ].

(** The French phrase opens with U+00EA, e with a circumflex. *)
Definition etre_pris : text :=
  234 :: str "tre pris entre le marteau et l'enclume".

Definition EXPRESSIONS : list Expression :=
  [ mkExpression (str "be caught between a rock and a hard place") etre_pris ].

(** ** Standard output

    [print(s)] writes [s] and a newline; standard output is the sequence of
    the chunks written, oldest first. *)

Definition stdout := list text.

Definition print (out : stdout) (s : text) : stdout := out ++ [s ++ nl].

(** [for r in table: print(card(r))], threading standard output. *)
Definition for_print {A : Type} (card : A -> text) (table : list A)
    (out : stdout) : stdout :=
  fold_left (fun o r => print o (card r)) table out.

Section Scripts.

(** [unicodedata.normalize('NFKD', _)] belongs to Python's standard library,
    not to the scripts: they are parameterised by it. *)
Variable nfkd : text -> text.

(** The first line of [slugify]. *)
Definition normalize (value : text) : text :=
  lower (decode_ascii (encode_ascii_ignore (nfkd value))).

Definition slugify (value : text) : text :=
  re_sub_nonword (normalize value).

(** *** en-irregular-verbs.py *)

Definition verb_slug (verb : IrregularVerb) : text :=
  slugify (str "em-irregular-verb-" ++ base verb).

Definition verb_back (verb : IrregularVerb) : text :=
  past_tense verb ++ str " / " ++ past_participle verb.

(** The f-string printed for one verb. *)
Definition verb_card (verb : IrregularVerb) : text :=
  concat
    [ nl;
      str "## Flashcard: "; base verb; nl;
      nl;
      str "`@slug: "; verb_slug verb; str "`"; nl;
      nl;
      str "(Irregular Verb) "; base verb; nl;
      nl;
      str "---"; nl;
      nl;
      verb_back verb; nl ].

Definition verbs_main (table : list IrregularVerb) : stdout :=
  for_print verb_card table [].

(** *** expression.py *)

Definition expr_slug (expr : Expression) : text := slugify (en_en expr).

(** The f-string printed for one expression. *)
Definition expr_card (expr : Expression) : text :=
  concat
    [ nl;
      str "## Flashcard: "; en_en expr; nl;
      nl;
      str "`@slug: "; expr_slug expr; str "`"; nl;
      nl;
      str "(Expression) **Translate**"; nl;
      nl;
      str "_<span class="; dquote; str "foreign"; dquote; str ">";
      en_en expr; str "</span>_"; nl;
      nl;
      str "---"; nl;
      nl;
      str "_<span class="; dquote; str "native"; dquote; str ">";
      fr_fr expr; str "</span>_"; nl;
      nl ].

Definition expressions_main (table : list Expression) : stdout :=
  for_print expr_card table [].

End Scripts.

(** ** A fragment of the Unicode decomposition data

    The compatibility decompositions of the Latin-1 Supplement block, as
    UnicodeData.txt lists them.  Code points of Basic Latin, and every code
    point absent from the table (the CJK unified ideographs among them), are
    their own decomposition. *)
Definition latin1_decompositions : list (codepoint * text) :=
  [ (160, [32]); (168, [32; 776]); (170, [97]); (175, [32; 772]);
    (178, [50]); (179, [51]); (180, [32; 769]); (181, [956]);
    (184, [32; 807]); (185, [49]); (186, [111]);
    (188, [49; 8260; 52]); (189, [49; 8260; 50]); (190, [51; 8260; 52]);
    (192, [65; 768]); (193, [65; 769]); (194, [65; 770]); (195, [65; 771]);
    (196, [65; 776]); (197, [65; 778]); (199, [67; 807]);
    (200, [69; 768]); (201, [69; 769]); (202, [69; 770]); (203, [69; 776]);
    (204, [73; 768]); (205, [73; 769]); (206, [73; 770]); (207, [73; 776]);
    (209, [78; 771]);
    (210, [79; 768]); (211, [79; 769]); (212, [79; 770]); (213, [79; 771]);
    (214, [79; 776]);
    (217, [85; 768]); (218, [85; 769]); (219, [85; 770]); (220, [85; 776]);
    (221, [89; 769]);
    (224, [97; 768]); (225, [97; 769]); (226, [97; 770]); (227, [97; 771]);
    (228, [97; 776]); (229, [97; 778]); (231, [99; 807]);
    (232, [101; 768]); (233, [101; 769]); (234, [101; 770]); (235, [101; 776]);
    (236, [105; 768]); (237, [105; 769]); (238, [105; 770]); (239, [105; 776]);
    (241, [110; 771]);
    (242, [111; 768]); (243, [111; 769]); (244, [111; 770]); (245, [111; 771]);
    (246, [111; 776]);
    (249, [117; 768]); (250, [117; 769]); (251, [117; 770]); (252, [117; 776]);
    (253, [121; 769]); (255, [121; 776]) ].

Definition decompose (c : codepoint) : text :=
  match find (fun entry => fst entry =? c) latin1_decompositions with
  | Some entry => snd entry
  | None => [c]
  end.

(** NFKD on texts over Basic Latin, Latin-1 Supplement and code points without
    a decomposition: each code point is replaced by its decomposition.  (The
    canonical reordering of combining marks is left out; marks lie outside
    ASCII, so [encode_ascii_ignore] drops them in whatever order they come.) *)
Definition nfkd_latin1 (s : text) : text := flat_map decompose s.

(** ** The slug grammar of the specification *)

Definition is_slug_alnum (c : codepoint) : bool := is_lower c || is_digit c.

Definition is_slug_char (c : codepoint) : bool :=
  is_slug_alnum c || (c =? hyphen).

(** A recogniser for [^[a-z0-9]+(-[a-z0-9]+)*$]: [after_alnum] tells whether
    the previous character was one of [a-z0-9]. *)
Fixpoint slug_regex_from (after_alnum : bool) (s : text) : bool :=
  match s with
  | [] => after_alnum
  | c :: rest =>
      if is_slug_alnum c then slug_regex_from true rest
      else if c =? hyphen then after_alnum && slug_regex_from false rest
      else false
  end.

Definition slug_regex (s : text) : bool := slug_regex_from false s.

(** No two hyphens in a row. *)
Fixpoint no_double_hyphen (s : text) : bool :=
  match s with
  | c :: ((d :: _) as rest) =>
      negb ((c =? hyphen) && (d =? hyphen)) && no_double_hyphen rest
  | _ => true
  end.

(** The condition under which the specification asks for a
    [DegenerateSlugError]: a non-empty text whose slug is empty. *)
Definition degenerate_slug (nfkd : text -> text) (t : text) : Prop :=
  t <> [] /\ slugify nfkd t = [].

(** Whether a text ends with a [\w] character other than the underscore;
    [prev] answers for the empty text. *)
Fixpoint ends_with_word (prev : bool) (s : text) : bool :=
  match s with
  | [] => prev
  | c :: rest => ends_with_word (negb (is_nonword_or_underscore c)) rest
  end.

Definition word_at_both_ends (s : text) : bool :=
  match s with
  | [] => false
  | c :: rest => negb (is_nonword_or_underscore c) && ends_with_word true rest
  end.

(** ** Reading a printed card back *)

Definition backtick : codepoint := 96.

(** What follows the prefix [p] in [s], when [s] starts with [p]. *)
Fixpoint starts_with (p s : text) : option text :=
  match p, s with
  | [], _ => Some s
  | a :: p', b :: s' => if a =? b then starts_with p' s' else None
  | _ :: _, [] => None
  end.

(** What follows the first occurrence of [marker] in [s]. *)
Fixpoint find_after (marker s : text) : option text :=
  match starts_with marker s with
  | Some rest => Some rest
  | None =>
      match s with
      | [] => None
      | _ :: s' => find_after marker s'
      end
  end.

Fixpoint take_until (stop : codepoint) (s : text) : text :=
  match s with
  | [] => []
  | c :: rest => if c =? stop then [] else c :: take_until stop rest
  end.

(** The identifier a card carries: what stands between the first
    [`@slug: ] and the next backtick. *)
Definition embedded_slug (card : text) : option text :=
  option_map (take_until backtick) (find_after (str "`@slug: ") card).

(** The last line of a card that ends with a newline. *)
Definition last_line (card : text) : text :=
  rev (take_until 10 (tl (rev card))).

Definition no_backtick (s : text) : Prop :=
  Forall (fun c => (c =? backtick) = false) s.

Definition no_newline (s : text) : Prop :=
  Forall (fun c => (c =? 10) = false) s.

(** ** Sample inputs

    Two inputs used below: a title in a script without ASCII
    decompositions (U+65E5 U+672C U+8A9E), and two titles that differ by case
    and punctuation only. *)
Definition nihongo : text := [26085; 26412; 35486].

Definition rock_solid_table : list Expression :=
  [ mkExpression (str "Rock-Solid") (str "solide comme un roc");
    mkExpression (str "rock solid") (str "solide comme un roc") ].

(** ** The records as the scripts hold them: dictionaries

    Each entry of [IRREGULAR_VERBS] and [EXPRESSIONS] is a [dict] with string
    keys, and the f-strings read it with [record["key"]], which raises
    [KeyError] on a key the dictionary lacks.  A dictionary is the list of
    its items; a key is looked up at its first item. *)

Definition dict := list (string * text).

Inductive exception := KeyError (key : string).

Definition result (A : Type) : Type := (exception + A)%type.

Definition bind {A B : Type} (r : result A) (k : A -> result B) : result B :=
  match r with
  | inl e => inl e
  | inr a => k a
  end.

Notation "x <- r ;; k" := (bind r (fun x => k))
  (at level 61, r at next level, right associativity).

(** [d[key]]. *)
Fixpoint getitem (d : dict) (key : string) : result text :=
  match d with
  | [] => inl (KeyError key)
  | (k, v) :: items => if String.eqb k key then inr v else getitem items key
  end.

(** [key in d]. *)
Definition has_key (d : dict) (key : string) : bool :=
  existsb (fun item => String.eqb (fst item) key) d.

Definition verb_dict (verb : IrregularVerb) : dict :=
  [ ("base"%string, base verb);
    ("past_tense"%string, past_tense verb);
    ("past_participle"%string, past_participle verb) ].

Definition expr_dict (expr : Expression) : dict :=
  [ ("en-en"%string, en_en expr); ("fr-fr"%string, fr_fr expr) ].

(** A [for] loop whose body may raise: the first exception ends the script,
    and what was printed before it stays on standard output. *)
Fixpoint for_print_raising {A : Type} (card : A -> result text)
    (table : list A) (out : stdout) : stdout * option exception :=
  match table with
  | [] => (out, None)
  | r :: rest =>
      match card r with
      | inl e => (out, Some e)
      | inr s => for_print_raising card rest (print out s)
      end
  end.

Section DictScripts.

Variable nfkd : text -> text.

(** The f-string of en-irregular-verbs.py, its replacement fields evaluated
    from left to right. *)
Definition verb_card_dict (verb : dict) : result text :=
  title <- getitem verb "base" ;;
  slug_source <- getitem verb "base" ;;
  header <- getitem verb "base" ;;
  past <- getitem verb "past_tense" ;;
  participle <- getitem verb "past_participle" ;;
  inr (concat
         [ nl;
           str "## Flashcard: "; title; nl;
           nl;
           str "`@slug: "; slugify nfkd (str "em-irregular-verb-" ++ slug_source);
           str "`"; nl;
           nl;
           str "(Irregular Verb) "; header; nl;
           nl;
           str "---"; nl;
           nl;
           past; str " / "; participle; nl ]).

Definition verbs_main_dict (table : list dict) : stdout * option exception :=
  for_print_raising verb_card_dict table [].

(** The f-string of expression.py, its replacement fields evaluated from left
    to right. *)
Definition expr_card_dict (expr : dict) : result text :=
  title <- getitem expr "en-en" ;;
  slug_source <- getitem expr "en-en" ;;
  foreign <- getitem expr "en-en" ;;
  native <- getitem expr "fr-fr" ;;
  inr (concat
         [ nl;
           str "## Flashcard: "; title; nl;
           nl;
           str "`@slug: "; slugify nfkd slug_source; str "`"; nl;
           nl;
           str "(Expression) **Translate**"; nl;
           nl;
           str "_<span class="; dquote; str "foreign"; dquote; str ">";
           foreign; str "</span>_"; nl;
           nl;
           str "---"; nl;
           nl;
           str "_<span class="; dquote; str "native"; dquote; str ">";
           native; str "</span>_"; nl;
           nl ]).

Definition expressions_main_dict (table : list dict)
  : stdout * option exception :=
  for_print_raising expr_card_dict table [].

End DictScripts.

(** ** Vocabulary for the properties of [slugify] *)

(** [sep.join(words)]. *)
Fixpoint join (sep : text) (words : list text) : text :=
  match words with
  | [] => []
  | [w] => w
  | w :: rest => w ++ sep ++ join sep rest
  end.

Definition is_alnum (c : codepoint) : bool :=
  is_upper c || is_lower c || is_digit c.

(** A word: one or more ASCII letters or digits. *)
Definition is_alnum_word (w : text) : Prop :=
  w <> [] /\ Forall (fun c => is_alnum c = true) w.

Definition strip_leading_hyphen (s : text) : text :=
  match s with
  | c :: rest => if c =? hyphen then rest else s
  | [] => []
  end.

(** ** Character classes *)

Ltac char_cases :=
  repeat match goal with
    | H : context [N.leb ?a ?b] |- _ => destruct (N.leb_spec a b)
    | |- context [N.leb ?a ?b] => destruct (N.leb_spec a b)
    | H : context [N.ltb ?a ?b] |- _ => destruct (N.ltb_spec a b)
    | |- context [N.ltb ?a ?b] => destruct (N.ltb_spec a b)
    | H : context [N.eqb ?a ?b] |- _ => destruct (N.eqb_spec a b)
    | |- context [N.eqb ?a ?b] => destruct (N.eqb_spec a b)
    end;
  simpl in *; try discriminate; try reflexivity; try lia.

Ltac char_solve :=
  unfold is_slug_char, is_slug_alnum, is_nonword_or_underscore, is_word,
    lower_char, is_upper, is_lower, is_digit, is_ascii, hyphen, underscore
    in *;
  char_cases.

Lemma lower_char_not_upper (c : codepoint) : is_upper (lower_char c) = false.
Proof. char_solve. Qed.

Lemma lower_char_ascii (c : codepoint) :
  is_ascii c = true -> is_ascii (lower_char c) = true.
Proof. char_solve. Qed.

Lemma word_char_slug_alnum (c : codepoint) :
  is_nonword_or_underscore c = false -> is_upper c = false ->
  is_slug_alnum c = true.
Proof. char_solve. Qed.

Lemma word_char_not_hyphen (c : codepoint) :
  is_nonword_or_underscore c = false -> (c =? hyphen) = false.
Proof. char_solve. Qed.

Lemma slug_char_ascii (c : codepoint) :
  is_slug_char c = true -> is_ascii c = true.
Proof. char_solve. Qed.

Lemma slug_char_lower (c : codepoint) :
  is_slug_char c = true -> lower_char c = c.
Proof. char_solve. Qed.

Lemma slug_char_not_upper (c : codepoint) :
  is_slug_char c = true -> is_upper c = false.
Proof. char_solve. Qed.

(** ** The normalisation stages *)

(** The encoder emits ASCII bytes only: [decode_ascii] never meets a byte it
    would refuse. *)
Lemma encode_ascii_ignore_range (s : text) :
  Forall (fun b => is_ascii b = true) (encode_ascii_ignore s).
Proof.
  unfold encode_ascii_ignore. apply Forall_forall. intros b Hb.
  apply filter_In in Hb. tauto.
Qed.

Lemma encode_ascii_ignore_id (s : text) :
  Forall (fun c => is_ascii c = true) s -> encode_ascii_ignore s = s.
Proof.
  unfold encode_ascii_ignore. induction 1 as [|c s Hc _ IH]; simpl.
  - reflexivity.
  - rewrite Hc, IH. reflexivity.
Qed.

Lemma lower_id (s : text) :
  Forall (fun c => is_slug_char c = true) s -> lower s = s.
Proof.
  unfold lower. induction 1 as [|c s Hc _ IH]; simpl.
  - reflexivity.
  - rewrite (slug_char_lower c Hc), IH. reflexivity.
Qed.

Lemma lower_no_upper (s : text) :
  Forall (fun c => is_upper c = false) (lower s).
Proof.
  unfold lower. apply Forall_forall. intros c Hc.
  apply in_map_iff in Hc. destruct Hc as [d [<- _]].
  apply lower_char_not_upper.
Qed.

(** ** The scanner *)

Lemma re_sub_scan_chars (s : text) :
  Forall (fun c => is_upper c = false) s ->
  forall in_run, Forall (fun c => is_slug_char c = true) (re_sub_scan in_run s).
Proof.
  induction 1 as [|c s Hc _ IH]; intros in_run; simpl.
  - constructor.
  - destruct (is_nonword_or_underscore c) eqn:Hsep.
    + destruct in_run; [apply IH|].
      constructor; [reflexivity | apply IH].
    + constructor; [|apply IH].
      unfold is_slug_char. rewrite (word_char_slug_alnum c Hsep Hc). reflexivity.
Qed.

Lemma no_double_hyphen_cons (c : codepoint) (s : text) :
  (c =? hyphen) = false -> no_double_hyphen (c :: s) = no_double_hyphen s.
Proof.
  intros Hc. destruct s as [|d s]; simpl; [reflexivity|].
  rewrite Hc. reflexivity.
Qed.

Lemma re_sub_scan_hyphens (s : text) :
  no_double_hyphen (hyphen :: re_sub_scan true s) = true
  /\ no_double_hyphen (re_sub_scan false s) = true.
Proof.
  induction s as [|c s [IHrun IHout]].
  - split; reflexivity.
  - cbn [re_sub_scan]. destruct (is_nonword_or_underscore c) eqn:Hsep.
    + split; assumption.
    + pose proof (word_char_not_hyphen c Hsep) as Hc. split.
      * change (negb ((hyphen =? hyphen) && (c =? hyphen))
                && no_double_hyphen (c :: re_sub_scan false s) = true).
        rewrite Hc, andb_false_r. cbn [negb andb].
        rewrite (no_double_hyphen_cons _ _ Hc). exact IHout.
      * rewrite (no_double_hyphen_cons _ _ Hc). exact IHout.
Qed.

(** Scanning a scanned text changes nothing. *)
Lemma re_sub_scan_idem (s : text) :
  re_sub_scan true (re_sub_scan true s) = re_sub_scan true s
  /\ re_sub_scan false (re_sub_scan true s) = re_sub_scan true s
  /\ re_sub_scan false (re_sub_scan false s) = re_sub_scan false s.
Proof.
  induction s as [|c s [IH1 [IH2 IH3]]].
  - repeat split.
  - cbn [re_sub_scan]. destruct (is_nonword_or_underscore c) eqn:Hsep.
    + repeat split; try assumption.
      cbn [re_sub_scan].
      change (is_nonword_or_underscore hyphen) with true. cbn iota.
      rewrite IH1. reflexivity.
    + cbn [re_sub_scan]. rewrite Hsep, IH3. repeat split.
Qed.

Lemma slug_regex_scan (s : text) :
  Forall (fun c => is_upper c = false) s ->
  slug_regex_from true (re_sub_scan false s) = ends_with_word true s
  /\ slug_regex_from false (re_sub_scan true s) = ends_with_word false s.
Proof.
  induction 1 as [|c s Hc _ [IHout IHrun]].
  - split; reflexivity.
  - cbn [re_sub_scan ends_with_word].
    destruct (is_nonword_or_underscore c) eqn:Hsep; cbn [negb].
    + split; [|exact IHrun].
      cbn [slug_regex_from].
      change (is_slug_alnum hyphen) with false.
      change (hyphen =? hyphen) with true. cbn iota. cbn [andb].
      exact IHrun.
    + cbn [slug_regex_from].
      rewrite (word_char_slug_alnum c Hsep Hc). split; exact IHout.
Qed.

(** ** The decomposition fragment on ASCII *)

Lemma find_none_all {A : Type} (f : A -> bool) (l : list A) :
  Forall (fun x => f x = false) l -> find f l = None.
Proof.
  induction 1 as [|x l Hx _ IH]; simpl.
  - reflexivity.
  - rewrite Hx. exact IH.
Qed.

Lemma latin1_decompositions_keys :
  Forall (fun entry => 160 <= fst entry) latin1_decompositions.
Proof. repeat constructor; discriminate. Qed.

Lemma decompose_ascii (c : codepoint) : is_ascii c = true -> decompose c = [c].
Proof.
  intros Hc. unfold decompose. rewrite find_none_all; [reflexivity|].
  eapply Forall_impl; [|exact latin1_decompositions_keys].
  intros entry Hentry. cbv beta in *. char_solve.
Qed.

Lemma nfkd_latin1_ascii (s : text) :
  Forall (fun c => is_ascii c = true) s -> nfkd_latin1 s = s.
Proof.
  unfold nfkd_latin1. induction 1 as [|c s Hc _ IH]; simpl.
  - reflexivity.
  - rewrite (decompose_ascii c Hc), IH. reflexivity.
Qed.

(** ** Properties of [slugify] *)

Section SlugProperties.

Variable nfkd : text -> text.

Lemma normalize_no_upper (t : text) :
  Forall (fun c => is_upper c = false) (normalize nfkd t).
Proof. unfold normalize. apply lower_no_upper. Qed.

Lemma normalize_ascii (t : text) :
  Forall (fun c => is_ascii c = true) (normalize nfkd t).
Proof.
  unfold normalize, decode_ascii, lower. apply Forall_forall. intros c Hc.
  apply in_map_iff in Hc. destruct Hc as [d [<- Hd]].
  apply lower_char_ascii.
  pose proof (encode_ascii_ignore_range (nfkd t)) as Hrange.
  rewrite Forall_forall in Hrange. exact (Hrange d Hd).
Qed.

Lemma slugify_slug_chars (t : text) :
  Forall (fun c => is_slug_char c = true) (slugify nfkd t).
Proof.
  unfold slugify, re_sub_nonword.
  apply re_sub_scan_chars, normalize_no_upper.
Qed.

(** C1, as the code has it: for every text [t] the slug is made of
    characters of [a-z0-9-] only (so it holds no uppercase letter and no
    non-ASCII character) and never holds two hyphens in a row.  It matches
    [^[a-z0-9]+(-[a-z0-9]+)*$] exactly when the normalised text starts and
    ends with a letter or a digit; otherwise the slug is empty or carries a
    leading or a trailing hyphen, which [slugify] returns as it is. *)
Theorem slugify_charset (t : text) :
  Forall (fun c => is_slug_char c = true) (slugify nfkd t)
  /\ Forall (fun c => is_ascii c = true /\ is_upper c = false) (slugify nfkd t)
  /\ no_double_hyphen (slugify nfkd t) = true
  /\ slug_regex (slugify nfkd t) = word_at_both_ends (normalize nfkd t).
Proof.
  pose proof (slugify_slug_chars t) as Hchars.
  split; [exact Hchars|]. split; [|split].
  - eapply Forall_impl; [|exact Hchars].
    intros c Hc. split.
    + apply slug_char_ascii, Hc.
    + apply slug_char_not_upper, Hc.
  - unfold slugify, re_sub_nonword. apply re_sub_scan_hyphens.
  - unfold slugify, re_sub_nonword, slug_regex.
    pose proof (normalize_no_upper t) as Hup.
    destruct (normalize nfkd t) as [|c s]; [reflexivity|].
    inversion Hup as [|c' s' Hc Hs]; subst.
    cbn [re_sub_scan word_at_both_ends].
    destruct (is_nonword_or_underscore c) eqn:Hsep; cbn [negb andb].
    + reflexivity.
    + cbn [slug_regex_from].
      rewrite (word_char_slug_alnum c Hsep Hc).
      apply slug_regex_scan, Hs.
Qed.

(** C4: [slugify] is deterministic: two calls on the same text return the
    same slug. *)
Theorem slugify_deterministic (t1 t2 : text) :
  t1 = t2 -> slugify nfkd t1 = slugify nfkd t2.
Proof. intros ->. reflexivity. Qed.

Section AsciiFixed.

(** NFKD leaves ASCII text alone: ASCII characters have no decomposition
    and are not combining marks. *)
Hypothesis nfkd_ascii :
  forall s, Forall (fun c => is_ascii c = true) s -> nfkd s = s.

Lemma normalize_slug (s : text) :
  Forall (fun c => is_slug_char c = true) s -> normalize nfkd s = s.
Proof.
  intros Hs. unfold normalize, decode_ascii.
  assert (Hascii : Forall (fun c => is_ascii c = true) s).
  { eapply Forall_impl; [|exact Hs]. intros c. apply slug_char_ascii. }
  rewrite (nfkd_ascii s Hascii), (encode_ascii_ignore_id s Hascii).
  apply lower_id, Hs.
Qed.

(** C5: [slugify] is idempotent: the slug of a slug is that slug. *)
Theorem slugify_idempotent (t : text) :
  slugify nfkd (slugify nfkd t) = slugify nfkd t.
Proof.
  unfold slugify at 1.
  rewrite (normalize_slug _ (slugify_slug_chars t)).
  unfold slugify, re_sub_nonword. apply re_sub_scan_idem.
Qed.

End AsciiFixed.

End SlugProperties.

(** The charset claim as the specification words it fails on a title that
    starts with a blank: the slug starts with a hyphen, and the text is not
    one for which a [DegenerateSlugError] is asked. *)
Lemma slugify_charset_counterexample :
  slugify nfkd_latin1 (str " be") = str "-be"
  /\ slug_regex (slugify nfkd_latin1 (str " be")) = false
  /\ ~ degenerate_slug nfkd_latin1 (str " be").
Proof.
  split; [reflexivity|]. split; [reflexivity|].
  intros [_ Hempty]. discriminate Hempty.
Qed.

Lemma slugify_deterministic_witness :
  slugify nfkd_latin1 etre_pris
  = slugify nfkd_latin1 (234 :: str "tre pris entre le marteau et l'enclume").
Proof. exact (slugify_deterministic nfkd_latin1 _ _ eq_refl). Defined.

Lemma slugify_idempotent_witness :
  slugify nfkd_latin1 (slugify nfkd_latin1 (str " Rock-Solid, be_caught! "))
  = slugify nfkd_latin1 (str " Rock-Solid, be_caught! ").
Proof. exact (slugify_idempotent nfkd_latin1 nfkd_latin1_ascii _). Defined.

(** ** Reading a printed card back: lemmas *)

Lemma starts_with_app (p rest : text) : starts_with p (p ++ rest) = Some rest.
Proof.
  induction p as [|a p IH]; simpl.
  - destruct rest; reflexivity.
  - rewrite N.eqb_refl. exact IH.
Qed.

Lemma find_after_skip (pre m rest : text) :
  no_backtick pre ->
  find_after (backtick :: m) (pre ++ (backtick :: m) ++ rest) = Some rest.
Proof.
  induction 1 as [|c pre Hc _ IH].
  - cbn [app find_after].
    change (backtick :: m ++ rest) with ((backtick :: m) ++ rest).
    rewrite starts_with_app. reflexivity.
  - cbn [app find_after starts_with].
    rewrite N.eqb_sym, Hc. exact IH.
Qed.

Lemma take_until_app (stop : codepoint) (s rest : text) :
  Forall (fun c => (c =? stop) = false) s ->
  take_until stop (s ++ stop :: rest) = s.
Proof.
  induction 1 as [|c s Hc _ IH]; simpl.
  - rewrite N.eqb_refl. reflexivity.
  - rewrite Hc, IH. reflexivity.
Qed.

Lemma slug_chars_no_backtick (s : text) :
  Forall (fun c => is_slug_char c = true) s -> no_backtick s.
Proof.
  intros Hs. eapply Forall_impl; [|exact Hs].
  intros c Hc. unfold backtick. char_solve.
Qed.

Lemma no_backtick_app (s1 s2 : text) :
  no_backtick s1 -> no_backtick s2 -> no_backtick (s1 ++ s2).
Proof. intros H1 H2. apply Forall_app. split; assumption. Qed.

Lemma no_backtick_str_check (s : text) :
  forallb (fun c => negb (c =? backtick)) s = true -> no_backtick s.
Proof.
  intros H. apply Forall_forall. intros c Hc.
  rewrite forallb_forall in H. apply negb_true_iff, H, Hc.
Qed.

(** Reading the slug back from a card whose title holds no backtick. *)
Lemma embedded_slug_card (title slug rest : text) :
  no_backtick title ->
  Forall (fun c => is_slug_char c = true) slug ->
  embedded_slug
    (nl ++ str "## Flashcard: " ++ title ++ nl ++ nl
        ++ str "`@slug: " ++ slug ++ str "`" ++ rest)
  = Some slug.
Proof.
  intros Htitle Hslug. unfold embedded_slug.
  replace (nl ++ str "## Flashcard: " ++ title ++ nl ++ nl
              ++ str "`@slug: " ++ slug ++ str "`" ++ rest)
    with ((nl ++ str "## Flashcard: " ++ title ++ nl ++ nl)
            ++ str "`@slug: " ++ (slug ++ str "`" ++ rest))
    by (rewrite <- !app_assoc; reflexivity).
  change (str "`@slug: ") with (backtick :: str "@slug: ").
  rewrite find_after_skip.
  - cbn [option_map]. change (str "`" ++ rest) with (backtick :: rest).
    rewrite take_until_app; [reflexivity|].
    apply slug_chars_no_backtick, Hslug.
  - repeat apply no_backtick_app; try assumption;
      apply no_backtick_str_check; reflexivity.
Qed.

(** ** The print loop *)

Lemma for_print_map {A : Type} (card : A -> text) (table : list A) :
  forall out,
    for_print card table out = out ++ map (fun r => card r ++ nl) table.
Proof.
  unfold for_print.
  induction table as [|r table IH]; intros out; simpl.
  - symmetry. apply app_nil_r.
  - rewrite IH. unfold print. rewrite <- app_assoc. reflexivity.
Qed.

Lemma last_line_app (front back : text) :
  no_newline back -> last_line (front ++ nl ++ back ++ nl) = back.
Proof.
  intros Hback. unfold last_line, nl.
  rewrite !rev_app_distr. cbn [rev app tl].
  rewrite <- app_assoc. cbn [app].
  rewrite take_until_app.
  - apply rev_involutive.
  - apply Forall_rev, Hback.
Qed.

(** ** Properties of the two scripts *)

Section DeckProperties.

Variable nfkd : text -> text.

(** C7: the cards are printed in the order of the table, one per record;
    in particular a table [[r1; r2; r3]] prints the cards of [r1], [r2] and
    [r3] in that order. *)
Theorem compile_preserves_order :
  (forall table,
      verbs_main nfkd table = map (fun r => verb_card nfkd r ++ nl) table
      /\ length (verbs_main nfkd table) = length table)
  /\ (forall table,
      expressions_main nfkd table
      = map (fun r => expr_card nfkd r ++ nl) table
      /\ length (expressions_main nfkd table) = length table)
  /\ (forall r1 r2 r3,
      verbs_main nfkd [r1; r2; r3]
      = [verb_card nfkd r1 ++ nl; verb_card nfkd r2 ++ nl;
         verb_card nfkd r3 ++ nl])
  /\ (forall r1 r2 r3,
      expressions_main nfkd [r1; r2; r3]
      = [expr_card nfkd r1 ++ nl; expr_card nfkd r2 ++ nl;
         expr_card nfkd r3 ++ nl]).
Proof.
  assert (Hverbs : forall table,
             verbs_main nfkd table
             = map (fun r => verb_card nfkd r ++ nl) table).
  { intros table. unfold verbs_main. rewrite for_print_map. reflexivity. }
  assert (Hexprs : forall table,
             expressions_main nfkd table
             = map (fun r => expr_card nfkd r ++ nl) table).
  { intros table. unfold expressions_main. rewrite for_print_map. reflexivity. }
  repeat split; intros;
    first [apply Hverbs | apply Hexprs
          | rewrite Hverbs; apply length_map
          | rewrite Hexprs; apply length_map].
Qed.

Lemma verb_card_layout (verb : IrregularVerb) :
  verb_card nfkd verb
  = nl ++ str "## Flashcard: " ++ base verb ++ nl ++ nl
       ++ str "`@slug: "
       ++ slugify nfkd (str "em-irregular-verb-" ++ base verb)
       ++ str "`" ++ nl ++ nl
       ++ str "(Irregular Verb) " ++ base verb ++ nl ++ nl
       ++ str "---" ++ nl ++ nl
       ++ past_tense verb ++ str " / " ++ past_participle verb ++ nl.
Proof.
  unfold verb_card, verb_slug, verb_back. cbn [concat].
  rewrite app_nil_r, <- !app_assoc. reflexivity.
Qed.

Lemma expr_card_layout (expr : Expression) :
  expr_card nfkd expr
  = nl ++ str "## Flashcard: " ++ en_en expr ++ nl ++ nl
       ++ str "`@slug: " ++ slugify nfkd (en_en expr) ++ str "`" ++ nl ++ nl
       ++ str "(Expression) **Translate**" ++ nl ++ nl
       ++ str "_<span class=" ++ dquote ++ str "foreign" ++ dquote ++ str ">"
       ++ en_en expr ++ str "</span>_" ++ nl ++ nl
       ++ str "---" ++ nl ++ nl
       ++ str "_<span class=" ++ dquote ++ str "native" ++ dquote ++ str ">"
       ++ fr_fr expr ++ str "</span>_" ++ nl ++ nl.
Proof.
  unfold expr_card, expr_slug. cbn [concat].
  rewrite app_nil_r. reflexivity.
Qed.

Lemma verb_card_embedded_slug (verb : IrregularVerb) :
  no_backtick (base verb) ->
  embedded_slug (verb_card nfkd verb)
  = Some (slugify nfkd (str "em-irregular-verb-" ++ base verb)).
Proof.
  intros Hbase. rewrite verb_card_layout.
  apply embedded_slug_card; [exact Hbase | apply slugify_slug_chars].
Qed.

Lemma expr_card_embedded_slug (expr : Expression) :
  no_backtick (en_en expr) ->
  embedded_slug (expr_card nfkd expr) = Some (slugify nfkd (en_en expr)).
Proof.
  intros Hsrc. rewrite expr_card_layout.
  apply embedded_slug_card; [exact Hsrc | apply slugify_slug_chars].
Qed.

(** C9: the card of a verb ends with [past_tense + " / " + past_participle]
    as the record holds them, whatever the normaliser does; read back, the
    last line of the card is that text, ["had / had"] when both forms are
    ["had"]. *)
Theorem verb_card_back (verb : IrregularVerb) :
  verb_card nfkd verb
  = nl ++ str "## Flashcard: " ++ base verb ++ nl ++ nl
       ++ str "`@slug: " ++ verb_slug nfkd verb ++ str "`" ++ nl ++ nl
       ++ str "(Irregular Verb) " ++ base verb ++ nl ++ nl
       ++ str "---" ++ nl ++ nl
       ++ past_tense verb ++ str " / " ++ past_participle verb ++ nl
  /\ (no_newline (past_tense verb) -> no_newline (past_participle verb) ->
      last_line (verb_card nfkd verb)
      = past_tense verb ++ str " / " ++ past_participle verb)
  /\ (past_tense verb = str "had" -> past_participle verb = str "had" ->
      last_line (verb_card nfkd verb) = str "had / had").
Proof.
  assert (Hline : no_newline (past_tense verb) ->
                  no_newline (past_participle verb) ->
                  last_line (verb_card nfkd verb)
                  = past_tense verb ++ str " / " ++ past_participle verb).
  { intros Hpt Hpp.
    replace (verb_card nfkd verb)
      with ((nl ++ str "## Flashcard: " ++ base verb ++ nl ++ nl
                ++ str "`@slug: " ++ verb_slug nfkd verb ++ str "`"
                ++ nl ++ nl
                ++ str "(Irregular Verb) " ++ base verb ++ nl ++ nl
                ++ str "---" ++ nl)
              ++ nl
              ++ (past_tense verb ++ str " / " ++ past_participle verb)
              ++ nl)
      by (rewrite verb_card_layout, <- !app_assoc; reflexivity).
    apply last_line_app.
    apply Forall_app. split; [exact Hpt|].
    apply Forall_app. split; [|exact Hpp].
    repeat constructor. }
  split; [apply verb_card_layout|]. split; [exact Hline|].
  intros Hpt Hpp. rewrite Hline.
  - rewrite Hpt, Hpp. reflexivity.
  - rewrite Hpt. repeat constructor.
  - rewrite Hpp. repeat constructor.
Qed.

(** C10: the slug of an expression is a function of its [en-en] phrase
    alone: two expressions with the same [en-en] phrase get the same slug,
    whatever their [fr-fr] phrases, and their cards carry the same
    identifier. *)
Theorem expr_slug_source_only (e1 e2 : Expression) :
  en_en e1 = en_en e2 ->
  expr_slug nfkd e1 = expr_slug nfkd e2
  /\ (no_backtick (en_en e1) ->
      embedded_slug (expr_card nfkd e1) = Some (expr_slug nfkd e1)
      /\ embedded_slug (expr_card nfkd e2) = Some (expr_slug nfkd e1)).
Proof.
  intros Hsrc. unfold expr_slug. rewrite <- Hsrc.
  split; [reflexivity|]. intros Hbt. split.
  - apply expr_card_embedded_slug, Hbt.
  - rewrite Hsrc. apply expr_card_embedded_slug. rewrite <- Hsrc. exact Hbt.
Qed.

(** C6, as the code has it: the first line of [slugify] turns the French
    phrase into ["etre pris entre le marteau et l'enclume"]: the circumflex
    is gone and the apostrophe, an ASCII character, is still there.  The
    apostrophe becomes a separator, a hyphen, in the [re.sub] that follows. *)
Theorem normalize_etre_pris :
  nfkd etre_pris = 101 :: 770 :: str "tre pris entre le marteau et l'enclume" ->
  normalize nfkd etre_pris = str "etre pris entre le marteau et l'enclume"
  /\ slugify nfkd etre_pris = str "etre-pris-entre-le-marteau-et-l-enclume".
Proof.
  intros Hnfkd. unfold slugify, normalize. rewrite Hnfkd.
  split; reflexivity.
Qed.

(** C8: the card of a verb carries [slugify("em-irregular-verb-" + base)]
    as its identifier while its title is the bare [base]; for the base
    ["be"] the identifier is ["em-irregular-verb-be"]. *)
Theorem verb_card_slug (verb : IrregularVerb) :
  (forall s, Forall (fun c => is_ascii c = true) s -> nfkd s = s) ->
  verb_card nfkd verb
  = nl ++ str "## Flashcard: " ++ base verb ++ nl ++ nl
       ++ str "`@slug: "
       ++ slugify nfkd (str "em-irregular-verb-" ++ base verb)
       ++ str "`" ++ nl ++ nl
       ++ str "(Irregular Verb) " ++ base verb ++ nl ++ nl
       ++ str "---" ++ nl ++ nl
       ++ past_tense verb ++ str " / " ++ past_participle verb ++ nl
  /\ (no_backtick (base verb) ->
      embedded_slug (verb_card nfkd verb)
      = Some (slugify nfkd (str "em-irregular-verb-" ++ base verb)))
  /\ (base verb = str "be" ->
      slugify nfkd (str "em-irregular-verb-" ++ base verb)
      = str "em-irregular-verb-be"
      /\ embedded_slug (verb_card nfkd verb)
         = Some (str "em-irregular-verb-be")).
Proof.
  intros nfkd_ascii.
  split; [apply verb_card_layout|].
  split; [apply verb_card_embedded_slug|].
  intros Hbe.
  assert (Hslug : slugify nfkd (str "em-irregular-verb-" ++ base verb)
                  = str "em-irregular-verb-be").
  { rewrite Hbe. unfold slugify, normalize.
    rewrite nfkd_ascii; [reflexivity|].
    apply Forall_forall. intros c Hc.
    revert c Hc. apply Forall_forall. repeat constructor. }
  split; [exact Hslug|].
  rewrite verb_card_embedded_slug, Hslug; [reflexivity|].
  rewrite Hbe. apply no_backtick_str_check. reflexivity.
Qed.

End DeckProperties.

Section DeckErrors.

Variable nfkd : text -> text.

(** C2, as the code has it: an expression whose [en-en] phrase holds no
    ASCII character after decomposition gets the empty slug; the loop
    raises nothing, prints the card of that record between those of its
    neighbours, and the card carries the empty identifier. *)
Theorem degenerate_slug_card_printed (expr : Expression)
    (before after : list Expression) :
  encode_ascii_ignore (nfkd (en_en expr)) = [] ->
  expr_slug nfkd expr = []
  /\ expressions_main nfkd (before ++ expr :: after)
     = expressions_main nfkd before
         ++ (expr_card nfkd expr ++ nl) :: expressions_main nfkd after
  /\ expr_card nfkd expr
     = nl ++ str "## Flashcard: " ++ en_en expr ++ nl ++ nl
          ++ str "`@slug: `" ++ nl ++ nl
          ++ str "(Expression) **Translate**" ++ nl ++ nl
          ++ str "_<span class=" ++ dquote ++ str "foreign" ++ dquote
          ++ str ">" ++ en_en expr ++ str "</span>_" ++ nl ++ nl
          ++ str "---" ++ nl ++ nl
          ++ str "_<span class=" ++ dquote ++ str "native" ++ dquote
          ++ str ">" ++ fr_fr expr ++ str "</span>_" ++ nl ++ nl
  /\ (no_backtick (en_en expr) ->
      embedded_slug (expr_card nfkd expr) = Some []).
Proof.
  intros Hempty.
  assert (Hslug : slugify nfkd (en_en expr) = []).
  { unfold slugify, normalize. rewrite Hempty. reflexivity. }
  split; [exact Hslug|]. split; [|split].
  - unfold expressions_main. rewrite !for_print_map. cbn [app].
    rewrite map_app. reflexivity.
  - rewrite expr_card_layout, Hslug. reflexivity.
  - intros Hbt. rewrite expr_card_embedded_slug by exact Hbt.
    rewrite Hslug. reflexivity.
Qed.

(** C3, as the code has it: the loops hold no check on slugs.  When two
    records of a table have the same slug, nothing is raised: the pass
    prints one card per record, and the cards of both records stand at
    their places in the output. *)
Theorem duplicate_slugs_printed :
  (forall table i j e1 e2,
      i <> j ->
      nth_error table i = Some e1 -> nth_error table j = Some e2 ->
      expr_slug nfkd e1 = expr_slug nfkd e2 ->
      length (expressions_main nfkd table) = length table
      /\ nth_error (expressions_main nfkd table) i
         = Some (expr_card nfkd e1 ++ nl)
      /\ nth_error (expressions_main nfkd table) j
         = Some (expr_card nfkd e2 ++ nl))
  /\ (forall table i j v1 v2,
      i <> j ->
      nth_error table i = Some v1 -> nth_error table j = Some v2 ->
      verb_slug nfkd v1 = verb_slug nfkd v2 ->
      length (verbs_main nfkd table) = length table
      /\ nth_error (verbs_main nfkd table) i
         = Some (verb_card nfkd v1 ++ nl)
      /\ nth_error (verbs_main nfkd table) j
         = Some (verb_card nfkd v2 ++ nl)).
Proof.
  split; intros table i j r1 r2 _ H1 H2 _.
  - unfold expressions_main. rewrite for_print_map. cbn [app].
    rewrite length_map, !nth_error_map, H1, H2. repeat split.
  - unfold verbs_main. rewrite for_print_map. cbn [app].
    rewrite length_map, !nth_error_map, H1, H2. repeat split.
Qed.

End DeckErrors.

(** ** The claims at concrete inputs *)

Lemma verb_card_slug_witness :
  embedded_slug (verb_card nfkd_latin1 (mkVerb (str "be") (str "was/were") (str "been")))
  = Some (str "em-irregular-verb-be").
Proof.
  exact (proj2 (proj2 (proj2
    (verb_card_slug nfkd_latin1
       (mkVerb (str "be") (str "was/were") (str "been"))
       nfkd_latin1_ascii)) eq_refl)).
Defined.

Lemma verb_card_back_witness :
  last_line (verb_card nfkd_latin1 (mkVerb (str "have") (str "had") (str "had")))
  = str "had / had".
Proof.
  exact (proj2 (proj2
    (verb_card_back nfkd_latin1 (mkVerb (str "have") (str "had") (str "had"))))
    eq_refl eq_refl).
Defined.

Lemma expr_slug_source_only_witness :
  let e1 := mkExpression (str "be caught between a rock and a hard place")
              etre_pris in
  let e2 := mkExpression (str "be caught between a rock and a hard place")
              (str "entre deux feux") in
  expr_slug nfkd_latin1 e1 = expr_slug nfkd_latin1 e2
  /\ (embedded_slug (expr_card nfkd_latin1 e1) = Some (expr_slug nfkd_latin1 e1)
      /\ embedded_slug (expr_card nfkd_latin1 e2)
         = Some (expr_slug nfkd_latin1 e1)).
Proof.
  intros e1 e2.
  destruct (expr_slug_source_only nfkd_latin1 e1 e2 eq_refl) as [Hslug Hcards].
  split; [exact Hslug|].
  apply Hcards. apply no_backtick_str_check. reflexivity.
Defined.

(** An all-ideographic title: the record's card is printed, and its
    identifier is empty. *)
Lemma degenerate_slug_counterexample :
  nihongo <> []
  /\ normalize nfkd_latin1 nihongo = []
  /\ expressions_main nfkd_latin1 [mkExpression nihongo (str "Japanese")]
     = [ (nl ++ str "## Flashcard: " ++ nihongo ++ nl ++ nl
             ++ str "`@slug: `" ++ nl ++ nl
             ++ str "(Expression) **Translate**" ++ nl ++ nl
             ++ str "_<span class=" ++ dquote ++ str "foreign" ++ dquote
             ++ str ">" ++ nihongo ++ str "</span>_" ++ nl ++ nl
             ++ str "---" ++ nl ++ nl
             ++ str "_<span class=" ++ dquote ++ str "native" ++ dquote
             ++ str ">Japanese</span>_" ++ nl ++ nl) ++ nl ].
Proof.
  split; [discriminate|]. split; reflexivity.
Qed.

Lemma degenerate_slug_card_printed_witness :
  let expr := mkExpression nihongo (str "Japanese") in
  expr_slug nfkd_latin1 expr = []
  /\ expressions_main nfkd_latin1 (EXPRESSIONS ++ expr :: EXPRESSIONS)
     = expressions_main nfkd_latin1 EXPRESSIONS
         ++ (expr_card nfkd_latin1 expr ++ nl)
            :: expressions_main nfkd_latin1 EXPRESSIONS
  /\ embedded_slug (expr_card nfkd_latin1 expr) = Some [].
Proof.
  intros expr.
  destruct (degenerate_slug_card_printed nfkd_latin1 expr EXPRESSIONS
              EXPRESSIONS eq_refl) as [Hslug [Hout [_ Hcard]]].
  split; [exact Hslug|]. split; [exact Hout|].
  apply Hcard. apply no_backtick_str_check. reflexivity.
Defined.

(** Two titles with the same slug: both cards are printed. *)
Lemma duplicate_slugs_counterexample :
  expr_slug nfkd_latin1 (mkExpression (str "Rock-Solid") (str "solide comme un roc"))
  = str "rock-solid"
  /\ expr_slug nfkd_latin1 (mkExpression (str "rock solid") (str "solide comme un roc"))
     = str "rock-solid"
  /\ expressions_main nfkd_latin1 rock_solid_table
     = [ expr_card nfkd_latin1
           (mkExpression (str "Rock-Solid") (str "solide comme un roc")) ++ nl;
         expr_card nfkd_latin1
           (mkExpression (str "rock solid") (str "solide comme un roc")) ++ nl ]
  /\ length (expressions_main nfkd_latin1 rock_solid_table) = 2%nat.
Proof. repeat split. Qed.

Lemma duplicate_slugs_printed_witness :
  length (expressions_main nfkd_latin1 rock_solid_table)
  = length rock_solid_table
  /\ nth_error (expressions_main nfkd_latin1 rock_solid_table) 0
     = Some (expr_card nfkd_latin1
               (mkExpression (str "Rock-Solid") (str "solide comme un roc"))
             ++ nl)
  /\ nth_error (expressions_main nfkd_latin1 rock_solid_table) 1
     = Some (expr_card nfkd_latin1
               (mkExpression (str "rock solid") (str "solide comme un roc"))
             ++ nl).
Proof.
  apply (proj1 (duplicate_slugs_printed nfkd_latin1) rock_solid_table 0%nat 1%nat).
  - discriminate.
  - reflexivity.
  - reflexivity.
  - reflexivity.
Defined.

(** The Normalizer alone keeps the apostrophe of the French phrase. *)
Lemma normalize_etre_pris_counterexample :
  normalize nfkd_latin1 etre_pris
  = str "etre pris entre le marteau et l'enclume"
  /\ normalize nfkd_latin1 etre_pris
     <> str "etre pris entre le marteau et l enclume".
Proof. split; [reflexivity | discriminate]. Qed.

Lemma normalize_etre_pris_witness :
  normalize nfkd_latin1 etre_pris
  = str "etre pris entre le marteau et l'enclume"
  /\ slugify nfkd_latin1 etre_pris
     = str "etre-pris-entre-le-marteau-et-l-enclume".
Proof. exact (normalize_etre_pris nfkd_latin1 eq_refl). Defined.

(** ** Further properties of the scanner *)

Lemma separator_not_slug_alnum (c : codepoint) :
  is_nonword_or_underscore c = true -> is_slug_alnum c = false.
Proof. char_solve. Qed.

Lemma slug_char_separator_hyphen (c : codepoint) :
  is_slug_char c = true -> is_nonword_or_underscore c = true -> c = hyphen.
Proof. char_solve. Qed.

Lemma separator_lower (c : codepoint) :
  is_nonword_or_underscore c = true ->
  lower_char c = c.
Proof. char_solve. Qed.

Lemma alnum_lower_slug_alnum (c : codepoint) :
  is_alnum c = true -> is_slug_alnum (lower_char c) = true.
Proof. unfold is_alnum. char_solve. Qed.

Lemma alnum_ascii (c : codepoint) : is_alnum c = true -> is_ascii c = true.
Proof. unfold is_alnum. char_solve. Qed.

Lemma slug_alnum_is_word (c : codepoint) :
  is_slug_alnum c = true -> is_nonword_or_underscore c = false.
Proof. char_solve. Qed.

Lemma slug_alnum_slug_char (c : codepoint) :
  is_slug_alnum c = true -> is_slug_char c = true.
Proof. unfold is_slug_char. intros ->. reflexivity. Qed.

Lemma re_sub_scan_length (s : text) :
  forall in_run, (length (re_sub_scan in_run s) <= length s)%nat.
Proof.
  induction s as [|c s IH]; intros in_run; cbn [re_sub_scan length].
  - lia.
  - destruct (is_nonword_or_underscore c).
    + destruct in_run; cbn [length].
      * specialize (IH true). lia.
      * specialize (IH true). lia.
    + cbn [length]. specialize (IH false). lia.
Qed.

Lemma re_sub_scan_nil (s : text) : re_sub_scan false s = [] -> s = [].
Proof.
  destruct s as [|c s]; [reflexivity|]. cbn [re_sub_scan].
  destruct (is_nonword_or_underscore c); discriminate.
Qed.

Lemma re_sub_scan_alnum (s : text) :
  forall in_run,
    filter is_slug_alnum (re_sub_scan in_run s) = filter is_slug_alnum s.
Proof.
  induction s as [|c s IH]; intros in_run; cbn [re_sub_scan filter].
  - reflexivity.
  - destruct (is_nonword_or_underscore c) eqn:Hsep.
    + rewrite (separator_not_slug_alnum c Hsep).
      destruct in_run; [apply IH|].
      cbn [filter]. change (is_slug_alnum hyphen) with false. apply IH.
    + cbn [filter]. rewrite IH. reflexivity.
Qed.

(** A text of slug characters without doubled hyphen passes the scanner
    unchanged; in a run, provided it does not start with a hyphen. *)
Lemma re_sub_scan_fixed (s : text) :
  Forall (fun c => is_slug_char c = true) s ->
  no_double_hyphen s = true ->
  re_sub_scan false s = s
  /\ (no_double_hyphen (hyphen :: s) = true -> re_sub_scan true s = s).
Proof.
  induction 1 as [|c s Hc Hs IH]; intros Hndh.
  - split; reflexivity.
  - assert (Hrest : no_double_hyphen s = true).
    { destruct s as [|d s']; [reflexivity|].
      cbn [no_double_hyphen] in Hndh. apply andb_true_iff in Hndh. tauto. }
    destruct (IH Hrest) as [IHout IHrun].
    cbn [re_sub_scan].
    destruct (is_nonword_or_underscore c) eqn:Hsep.
    + pose proof (slug_char_separator_hyphen c Hc Hsep) as ->.
      split.
      * rewrite (IHrun Hndh). reflexivity.
      * intros Hhh. exfalso. cbn [no_double_hyphen] in Hhh.
        change (hyphen =? hyphen) with true in Hhh.
        cbn [andb negb] in Hhh. discriminate Hhh.
    + rewrite IHout. split; reflexivity.
Qed.

(** A non-empty run of class characters counts as one hyphen, wherever it
    stands. *)
Lemma re_sub_scan_skip_run (run rest : text) :
  Forall (fun c => is_nonword_or_underscore c = true) run ->
  re_sub_scan true (run ++ rest) = re_sub_scan true rest.
Proof.
  induction 1 as [|c run Hc _ IH]; cbn [app re_sub_scan].
  - reflexivity.
  - rewrite Hc. exact IH.
Qed.

Lemma re_sub_scan_run (front run rest : text) :
  run <> [] ->
  Forall (fun c => is_nonword_or_underscore c = true) run ->
  forall in_run,
    re_sub_scan in_run (front ++ run ++ rest)
    = re_sub_scan in_run (front ++ hyphen :: rest).
Proof.
  intros Hne Hrun. induction front as [|c front IH]; intros in_run.
  - destruct Hrun as [|c run Hc Hrun]; [contradiction|].
    cbn [app re_sub_scan]. rewrite Hc.
    change (is_nonword_or_underscore hyphen) with true. cbn iota.
    rewrite (re_sub_scan_skip_run run rest Hrun). reflexivity.
  - cbn [app re_sub_scan].
    destruct (is_nonword_or_underscore c); [destruct in_run|];
      rewrite IH; reflexivity.
Qed.

Lemma re_sub_scan_word (w rest : text) :
  Forall (fun c => is_slug_alnum c = true) w ->
  forall in_run,
    re_sub_scan in_run (w ++ rest)
    = w ++ re_sub_scan (match w with [] => in_run | _ => false end) rest.
Proof.
  induction 1 as [|c w Hc Hw IH]; intros in_run; cbn [app re_sub_scan].
  - reflexivity.
  - rewrite (slug_alnum_is_word c Hc), IH.
    destruct w; reflexivity.
Qed.

Lemma re_sub_scan_strip (s : text) :
  Forall (fun c => is_upper c = false) s ->
  re_sub_scan true s = strip_leading_hyphen (re_sub_scan false s).
Proof.
  intros Hs. destruct Hs as [|c s Hc Hs]; [reflexivity|].
  cbn [re_sub_scan].
  destruct (is_nonword_or_underscore c) eqn:Hsep.
  - reflexivity.
  - unfold strip_leading_hyphen.
    rewrite (word_char_not_hyphen c Hsep). reflexivity.
Qed.

Lemma lower_filter_alnum (s : text) :
  filter is_slug_alnum (lower s) = lower (filter is_alnum s).
Proof.
  unfold lower. induction s as [|c s IH]; cbn [map filter].
  - reflexivity.
  - replace (is_slug_alnum (lower_char c)) with (is_alnum c)
      by (unfold is_alnum; char_solve).
    destruct (is_alnum c); cbn [map]; rewrite IH; reflexivity.
Qed.

Lemma filter_alnum_ascii (s : text) :
  filter is_alnum (encode_ascii_ignore s) = filter is_alnum s.
Proof.
  unfold encode_ascii_ignore. induction s as [|c s IH]; cbn [filter].
  - reflexivity.
  - destruct (is_ascii c) eqn:Hascii; cbn [filter]; rewrite IH.
    + reflexivity.
    + destruct (is_alnum c) eqn:Halnum; [|reflexivity].
      rewrite (alnum_ascii c Halnum) in Hascii. discriminate Hascii.
Qed.

Lemma lower_separators (s : text) :
  Forall (fun c => is_nonword_or_underscore c = true) s -> lower s = s.
Proof.
  unfold lower. induction 1 as [|c s Hc _ IH]; cbn [map].
  - reflexivity.
  - rewrite (separator_lower c Hc), IH. reflexivity.
Qed.

Lemma lower_join (sep : text) (words : list text) :
  lower (join sep words) = join (lower sep) (map lower words).
Proof.
  unfold lower. induction words as [|w words IH]; [reflexivity|].
  destruct words as [|w' words]; [reflexivity|].
  change (join sep (w :: w' :: words)) with (w ++ sep ++ join sep (w' :: words)).
  rewrite !map_app, IH. reflexivity.
Qed.

Lemma join_ascii (sep : text) (words : list text) :
  Forall (fun c => is_ascii c = true) sep ->
  Forall (Forall (fun c => is_ascii c = true)) words ->
  Forall (fun c => is_ascii c = true) (join sep words).
Proof.
  intros Hsep. induction 1 as [|w words Hw Hwords IH]; [constructor|].
  destruct words as [|w' words]; [exact Hw|].
  change (join sep (w :: w' :: words)) with (w ++ sep ++ join sep (w' :: words)).
  apply Forall_app. split; [exact Hw|].
  apply Forall_app. split; [exact Hsep | exact IH].
Qed.

(** The scanner on words joined by a run of class characters. *)
Lemma re_sub_scan_join (sep : text) (words : list text) :
  sep <> [] ->
  Forall (fun c => is_nonword_or_underscore c = true) sep ->
  Forall (fun w => w <> [] /\ Forall (fun c => is_slug_alnum c = true) w)
    words ->
  forall in_run,
    re_sub_scan in_run (join sep words) = join [hyphen] words.
Proof.
  intros Hne Hsep. induction 1 as [|w words [Hw Halnum] _ IH]; intros in_run.
  - reflexivity.
  - destruct words as [|w' words].
    + cbn [join]. rewrite <- (app_nil_r w) at 1.
      rewrite (re_sub_scan_word w [] Halnum). cbn [re_sub_scan].
      apply app_nil_r.
    + change (join sep (w :: w' :: words))
        with (w ++ sep ++ join sep (w' :: words)).
      change (join [hyphen] (w :: w' :: words))
        with (w ++ [hyphen] ++ join [hyphen] (w' :: words)).
      rewrite (re_sub_scan_word w _ Halnum).
      destruct w as [|c w]; [contradiction|].
      pose proof (re_sub_scan_run [] sep (join sep (w' :: words))
                    Hne Hsep false) as Hrun.
      cbn [app] in Hrun. rewrite Hrun.
      cbn [app re_sub_scan].
      change (is_nonword_or_underscore hyphen) with true. cbn iota.
      rewrite (IH true). reflexivity.
Qed.

Lemma slug_regex_word (w rest : text) :
  w <> [] ->
  Forall (fun c => is_slug_alnum c = true) w ->
  forall after_alnum,
    slug_regex_from after_alnum (w ++ rest) = slug_regex_from true rest.
Proof.
  intros Hne Hw. revert Hne.
  induction Hw as [|c w Hc Hw IH]; intros Hne after_alnum; [contradiction|].
  cbn [app slug_regex_from]. rewrite Hc.
  destruct w as [|d w]; [reflexivity|].
  apply IH. discriminate.
Qed.

Lemma slug_regex_join (words : list text) :
  Forall (fun w => w <> [] /\ Forall (fun c => is_slug_alnum c = true) w)
    words ->
  words <> [] ->
  forall after_alnum,
    slug_regex_from after_alnum (join [hyphen] words) = true.
Proof.
  induction 1 as [|w words [Hw Halnum] _ IH]; intros Hne after_alnum;
    [contradiction|].
  destruct words as [|w' words].
  - cbn [join]. rewrite <- (app_nil_r w).
    rewrite (slug_regex_word w [] Hw Halnum). reflexivity.
  - change (join [hyphen] (w :: w' :: words))
      with (w ++ hyphen :: join [hyphen] (w' :: words)).
    rewrite (slug_regex_word w _ Hw Halnum).
    cbn [slug_regex_from].
    change (is_slug_alnum hyphen) with false.
    change (hyphen =? hyphen) with true. cbn iota. cbn [andb].
    apply IH. discriminate.
Qed.

(** ** Further properties of [slugify] *)

Section SlugFurther.

Variable nfkd : text -> text.

(** X1: a slug is never longer than the NFKD form of its text. *)
Theorem slugify_length (t : text) :
  (length (slugify nfkd t) <= length (nfkd t))%nat.
Proof.
  unfold slugify, re_sub_nonword, normalize, decode_ascii, lower,
    encode_ascii_ignore.
  pose proof (re_sub_scan_length
                (map lower_char (filter is_ascii (nfkd t))) false) as Hscan.
  rewrite length_map in Hscan.
  pose proof (filter_length_le is_ascii (nfkd t)) as Hfilter.
  lia.
Qed.

(** X2: the slug is empty exactly when no ASCII character is left of the
    NFKD form of the text; a text of punctuation only gets a hyphen, not the
    empty slug. *)
Theorem slugify_empty_iff (t : text) :
  slugify nfkd t = [] <-> encode_ascii_ignore (nfkd t) = [].
Proof.
  unfold slugify, re_sub_nonword, normalize, decode_ascii, lower. split.
  - intros Hslug. apply re_sub_scan_nil in Hslug.
    destruct (encode_ascii_ignore (nfkd t)); [reflexivity | discriminate].
  - intros ->. reflexivity.
Qed.

(** X3: [slugify] loses no letter and no digit: the letters and digits of the
    slug are the ASCII letters and digits of the NFKD form of the text,
    lowercased, in their order. *)
Theorem slugify_keeps_alnum (t : text) :
  filter is_slug_alnum (slugify nfkd t) = lower (filter is_alnum (nfkd t)).
Proof.
  unfold slugify, re_sub_nonword, normalize, decode_ascii.
  rewrite re_sub_scan_alnum, lower_filter_alnum, filter_alnum_ascii.
  reflexivity.
Qed.

Section AsciiFixedFurther.

Hypothesis nfkd_ascii :
  forall s, Forall (fun c => is_ascii c = true) s -> nfkd s = s.

Lemma normalize_ascii_text (s : text) :
  Forall (fun c => is_ascii c = true) s -> normalize nfkd s = lower s.
Proof.
  intros Hs. unfold normalize, decode_ascii.
  rewrite (nfkd_ascii s Hs), (encode_ascii_ignore_id s Hs). reflexivity.
Qed.

(** X4: the texts [slugify] returns unchanged are exactly the texts made of
    characters of [a-z0-9-] without two hyphens in a row. *)
Theorem slugify_fixed_points (s : text) :
  slugify nfkd s = s
  <-> (Forall (fun c => is_slug_char c = true) s
       /\ no_double_hyphen s = true).
Proof.
  split.
  - intros Hfix. rewrite <- Hfix. split.
    + apply slugify_slug_chars.
    + unfold slugify, re_sub_nonword. apply re_sub_scan_hyphens.
  - intros [Hchars Hndh]. unfold slugify, re_sub_nonword.
    rewrite (normalize_slug nfkd nfkd_ascii s Hchars).
    apply re_sub_scan_fixed; assumption.
Qed.

(** X5: on ASCII titles the slug ignores case and does not tell one
    separator run from another: two titles whose parts agree up to case, and
    are split by any non-empty runs of characters outside [A-Za-z0-9], get the
    same slug. *)
Theorem slugify_case_and_separators (a a' b b' run run' : text) :
  Forall (fun c => is_ascii c = true) a ->
  Forall (fun c => is_ascii c = true) a' ->
  Forall (fun c => is_ascii c = true) b ->
  Forall (fun c => is_ascii c = true) b' ->
  Forall (fun c => is_ascii c = true /\ is_nonword_or_underscore c = true) run ->
  Forall (fun c => is_ascii c = true /\ is_nonword_or_underscore c = true) run' ->
  run <> [] -> run' <> [] ->
  lower a = lower a' -> lower b = lower b' ->
  slugify nfkd (a ++ run ++ b) = slugify nfkd (a' ++ run' ++ b').
Proof.
  intros Ha Ha' Hb Hb' Hrun Hrun' Hne Hne' Hla Hlb.
  assert (Hsep : forall r,
             Forall (fun c => is_ascii c = true
                              /\ is_nonword_or_underscore c = true) r ->
             Forall (fun c => is_ascii c = true) r
             /\ Forall (fun c => is_nonword_or_underscore c = true) r).
  { intros r Hr. split; (eapply Forall_impl; [|exact Hr]); cbv beta; tauto. }
  destruct (Hsep run Hrun) as [Hrun_ascii Hrun_sep].
  destruct (Hsep run' Hrun') as [Hrun_ascii' Hrun_sep'].
  unfold slugify, re_sub_nonword.
  rewrite !normalize_ascii_text
    by (repeat (apply Forall_app; split); assumption).
  unfold lower in *. rewrite !map_app.
  fold (lower run). fold (lower run').
  rewrite (lower_separators run Hrun_sep), (lower_separators run' Hrun_sep').
  rewrite (re_sub_scan_run _ run _ Hne Hrun_sep).
  rewrite (re_sub_scan_run _ run' _ Hne' Hrun_sep').
  rewrite Hla, Hlb. reflexivity.
Qed.

(** X6: a title of words of ASCII letters and digits, joined by a non-empty
    ASCII separator free of letters and digits, gets the lowercased words
    joined by single hyphens; with at least one word that slug matches
    [^[a-z0-9]+(-[a-z0-9]+)*$]. *)
Theorem slugify_joined_words (sep : text) (words : list text) :
  sep <> [] ->
  Forall (fun c => is_ascii c = true /\ is_nonword_or_underscore c = true) sep ->
  Forall is_alnum_word words ->
  slugify nfkd (join sep words) = join [hyphen] (map lower words)
  /\ (words <> [] -> slug_regex (slugify nfkd (join sep words)) = true).
Proof.
  intros Hne Hsep Hwords.
  assert (Hsep_ascii : Forall (fun c => is_ascii c = true) sep).
  { eapply Forall_impl; [|exact Hsep]. cbv beta. tauto. }
  assert (Hsep_class : Forall (fun c => is_nonword_or_underscore c = true) sep).
  { eapply Forall_impl; [|exact Hsep]. cbv beta. tauto. }
  assert (Hlowered :
            Forall (fun w => w <> []
                             /\ Forall (fun c => is_slug_alnum c = true) w)
              (map lower words)).
  { apply Forall_forall. intros w Hw. apply in_map_iff in Hw.
    destruct Hw as [w0 [<- Hw0]].
    rewrite Forall_forall in Hwords. destruct (Hwords w0 Hw0) as [Hw0ne Hw0a].
    split.
    - destruct w0; [contradiction | discriminate].
    - unfold lower. apply Forall_forall. intros c Hc.
      apply in_map_iff in Hc. destruct Hc as [d [<- Hd]].
      rewrite Forall_forall in Hw0a. apply alnum_lower_slug_alnum, Hw0a, Hd. }
  assert (Hslug : slugify nfkd (join sep words)
                  = join [hyphen] (map lower words)).
  { unfold slugify, re_sub_nonword.
    rewrite normalize_ascii_text.
    - rewrite lower_join, (lower_separators sep Hsep_class).
      apply re_sub_scan_join; assumption.
    - apply join_ascii; [exact Hsep_ascii|].
      eapply Forall_impl; [|exact Hwords].
      intros w [_ Hw]. eapply Forall_impl; [|exact Hw].
      intros c. apply alnum_ascii. }
  split; [exact Hslug|].
  intros Hwne. rewrite Hslug. unfold slug_regex.
  apply slug_regex_join; [exact Hlowered|].
  destruct words; [contradiction | discriminate].
Qed.

End AsciiFixedFurther.

End SlugFurther.

(** ** Further properties of the two scripts *)

Lemma getitem_missing (d : dict) (key : string) :
  has_key d key = false -> getitem d key = inl (KeyError key).
Proof.
  unfold has_key. induction d as [|[k v] d IH]; cbn [existsb getitem fst].
  - reflexivity.
  - destruct (String.eqb k key); cbn [orb]; [discriminate | exact IH].
Qed.

Lemma getitem_present (d : dict) (key : string) :
  has_key d key = true -> exists v, getitem d key = inr v.
Proof.
  unfold has_key. induction d as [|[k v] d IH]; cbn [existsb getitem fst].
  - discriminate.
  - destruct (String.eqb k key); cbn [orb]; [exists v; reflexivity | exact IH].
Qed.

(** The raising loop over a table whose first records all yield a card. *)
Lemma for_print_raising_prefix {A B : Type} (card : B -> result text)
    (pure_card : A -> text) (to_dict : A -> B) (good : list A) (rest : list B) :
  (forall r, card (to_dict r) = inr (pure_card r)) ->
  forall out,
    for_print_raising card (map to_dict good ++ rest) out
    = for_print_raising card rest (for_print pure_card good out).
Proof.
  intros Hcard. unfold for_print.
  induction good as [|r good IH]; intros out; cbn [map app for_print_raising fold_left].
  - reflexivity.
  - rewrite Hcard. apply IH.
Qed.

Section ScriptsFurther.

Variable nfkd : text -> text.


Lemma verb_card_dict_complete (d : dict) (b pt pp : text) :
  getitem d "base" = inr b ->
  getitem d "past_tense" = inr pt ->
  getitem d "past_participle" = inr pp ->
  verb_card_dict nfkd d = inr (verb_card nfkd (mkVerb b pt pp)).
Proof.
  intros Hb Hpt Hpp. unfold verb_card_dict. rewrite Hb, Hpt, Hpp.
  cbn [bind]. unfold verb_card, verb_slug, verb_back. cbn [base past_tense past_participle concat].
  rewrite <- !app_assoc. reflexivity.
Qed.

Lemma expr_card_dict_complete (d : dict) (en fr : text) :
  getitem d "en-en" = inr en ->
  getitem d "fr-fr" = inr fr ->
  expr_card_dict nfkd d = inr (expr_card nfkd (mkExpression en fr)).
Proof.
  intros Hen Hfr. unfold expr_card_dict. rewrite Hen, Hfr. reflexivity.
Qed.

(** X10: reading the records as dictionaries changes nothing when every key
    is there: a dictionary that holds the keys of its script, in any order and
    among any other keys, yields the card of the record with those values and
    raises nothing, and so does a whole table of complete records. *)
Theorem dict_scripts_agree :
  (forall d b pt pp,
      getitem d "base" = inr b ->
      getitem d "past_tense" = inr pt ->
      getitem d "past_participle" = inr pp ->
      verb_card_dict nfkd d = inr (verb_card nfkd (mkVerb b pt pp)))
  /\ (forall d en fr,
      getitem d "en-en" = inr en ->
      getitem d "fr-fr" = inr fr ->
      expr_card_dict nfkd d = inr (expr_card nfkd (mkExpression en fr)))
  /\ (forall table,
      verbs_main_dict nfkd (map verb_dict table)
      = (verbs_main nfkd table, None))
  /\ (forall table,
      expressions_main_dict nfkd (map expr_dict table)
      = (expressions_main nfkd table, None)).
Proof.
  split; [exact verb_card_dict_complete|].
  split; [exact expr_card_dict_complete|].
  split; intros table.
  - unfold verbs_main_dict, verbs_main.
    rewrite <- (app_nil_r (map verb_dict table)).
    rewrite (for_print_raising_prefix (verb_card_dict nfkd) (verb_card nfkd)).
    + reflexivity.
    + intros [b pt pp]. apply verb_card_dict_complete; reflexivity.
  - unfold expressions_main_dict, expressions_main.
    rewrite <- (app_nil_r (map expr_dict table)).
    rewrite (for_print_raising_prefix (expr_card_dict nfkd) (expr_card nfkd)).
    + reflexivity.
    + intros [en fr]. apply expr_card_dict_complete; reflexivity.
Qed.

(** X11: en-irregular-verbs.py on a table whose first incomplete record
    follows complete ones: the script ends with [KeyError] for the first key
    the record lacks, in the order [base], [past_tense], [past_participle];
    the cards of the records before it are on standard output, and no card of
    that record or of a later one is. *)
Theorem verbs_main_key_error (good : list IrregularVerb) (bad : dict)
    (rest : list dict) :
  (has_key bad "base" = false ->
   verbs_main_dict nfkd (map verb_dict good ++ bad :: rest)
   = (verbs_main nfkd good, Some (KeyError "base")))
  /\ (has_key bad "base" = true -> has_key bad "past_tense" = false ->
      verbs_main_dict nfkd (map verb_dict good ++ bad :: rest)
      = (verbs_main nfkd good, Some (KeyError "past_tense")))
  /\ (has_key bad "base" = true -> has_key bad "past_tense" = true ->
      has_key bad "past_participle" = false ->
      verbs_main_dict nfkd (map verb_dict good ++ bad :: rest)
      = (verbs_main nfkd good, Some (KeyError "past_participle"))).
Proof.
  assert (Hgood : forall e,
             verb_card_dict nfkd bad = inl e ->
             verbs_main_dict nfkd (map verb_dict good ++ bad :: rest)
             = (verbs_main nfkd good, Some e)).
  { intros e Hbad. unfold verbs_main_dict, verbs_main.
    rewrite (for_print_raising_prefix (verb_card_dict nfkd) (verb_card nfkd)).
    - cbn [for_print_raising]. rewrite Hbad. reflexivity.
    - intros [b pt pp]. apply verb_card_dict_complete; reflexivity. }
  repeat split.
  - intros Hbase. apply Hgood. unfold verb_card_dict.
    rewrite (getitem_missing _ _ Hbase). reflexivity.
  - intros Hbase Hpast. apply Hgood. unfold verb_card_dict.
    destruct (getitem_present _ _ Hbase) as [b ->].
    rewrite (getitem_missing _ _ Hpast). reflexivity.
  - intros Hbase Hpast Hpart. apply Hgood. unfold verb_card_dict.
    destruct (getitem_present _ _ Hbase) as [b ->].
    destruct (getitem_present _ _ Hpast) as [pt ->].
    rewrite (getitem_missing _ _ Hpart). reflexivity.
Qed.

(** X12: expression.py on a table whose first incomplete record follows
    complete ones: the script ends with [KeyError] for [en-en] when the record
    lacks it, else for [fr-fr]; the cards of the records before it are on
    standard output, and no card of that record or of a later one is. *)
Theorem expressions_main_key_error (good : list Expression) (bad : dict)
    (rest : list dict) :
  (has_key bad "en-en" = false ->
   expressions_main_dict nfkd (map expr_dict good ++ bad :: rest)
   = (expressions_main nfkd good, Some (KeyError "en-en")))
  /\ (has_key bad "en-en" = true -> has_key bad "fr-fr" = false ->
      expressions_main_dict nfkd (map expr_dict good ++ bad :: rest)
      = (expressions_main nfkd good, Some (KeyError "fr-fr"))).
Proof.
  assert (Hgood : forall e,
             expr_card_dict nfkd bad = inl e ->
             expressions_main_dict nfkd (map expr_dict good ++ bad :: rest)
             = (expressions_main nfkd good, Some e)).
  { intros e Hbad. unfold expressions_main_dict, expressions_main.
    rewrite (for_print_raising_prefix (expr_card_dict nfkd) (expr_card nfkd)).
    - cbn [for_print_raising]. rewrite Hbad. reflexivity.
    - intros [en fr]. apply expr_card_dict_complete; reflexivity. }
  split.
  - intros Hen. apply Hgood. unfold expr_card_dict.
    rewrite (getitem_missing _ _ Hen). reflexivity.
  - intros Hen Hfr. apply Hgood. unfold expr_card_dict.
    destruct (getitem_present _ _ Hen) as [en ->].
    rewrite (getitem_missing _ _ Hfr). reflexivity.
Qed.

End ScriptsFurther.

Section VerbSlugs.

Variable nfkd : text -> text.

Hypothesis nfkd_ascii :
  forall s, Forall (fun c => is_ascii c = true) s -> nfkd s = s.

Lemma verb_prefix_scan (s : text) :
  re_sub_scan false (str "em-irregular-verb-" ++ s)
  = str "em-irregular-verb-" ++ re_sub_scan true s.
Proof. reflexivity. Qed.

(** X8: for a base made of lowercase ASCII letters and digits the slug of a
    verb is ["em-irregular-verb-"] followed by the base itself, so that two
    such verbs have the same slug only if they have the same base. *)
Theorem verb_slug_simple_base :
  (forall verb,
      Forall (fun c => is_slug_alnum c = true) (base verb) ->
      verb_slug nfkd verb = str "em-irregular-verb-" ++ base verb)
  /\ (forall v1 v2,
      Forall (fun c => is_slug_alnum c = true) (base v1) ->
      Forall (fun c => is_slug_alnum c = true) (base v2) ->
      verb_slug nfkd v1 = verb_slug nfkd v2 -> base v1 = base v2).
Proof.
  assert (Hslug : forall verb,
             Forall (fun c => is_slug_alnum c = true) (base verb) ->
             verb_slug nfkd verb = str "em-irregular-verb-" ++ base verb).
  { intros verb Hbase. unfold verb_slug, slugify, re_sub_nonword.
    rewrite (normalize_slug nfkd nfkd_ascii).
    - rewrite verb_prefix_scan.
      rewrite <- (app_nil_r (base verb)) at 1.
      rewrite (re_sub_scan_word (base verb) [] Hbase).
      cbn [re_sub_scan]. rewrite app_nil_r. reflexivity.
    - apply Forall_app. split.
      + repeat constructor.
      + eapply Forall_impl; [|exact Hbase]. apply slug_alnum_slug_char. }
  split; [exact Hslug|].
  intros v1 v2 H1 H2 Heq.
  rewrite (Hslug v1 H1), (Hslug v2 H2) in Heq.
  exact (app_inv_head _ _ _ Heq).
Qed.

Section Concatenation.

(** What NFKD leaves of a concatenation in ASCII is what it leaves of the
    parts: decomposition works code point by code point, and the reordering
    that follows moves combining marks only. *)
Hypothesis nfkd_app :
  forall a b,
    encode_ascii_ignore (nfkd (a ++ b))
    = encode_ascii_ignore (nfkd a) ++ encode_ascii_ignore (nfkd b).

(** X7: the slug of a verb is ["em-irregular-verb-"] followed by the slug of
    its base without that slug's leading hyphen, if it has one: the prefix
    ends with a hyphen, which absorbs a separator run at the start of the
    base.  In particular it is never empty, and it ends with a hyphen when
    the base gives the empty slug. *)
Theorem verb_slug_prefix (verb : IrregularVerb) :
  verb_slug nfkd verb
  = str "em-irregular-verb-" ++ strip_leading_hyphen (slugify nfkd (base verb))
  /\ verb_slug nfkd verb <> []
  /\ (slugify nfkd (base verb) = [] ->
      verb_slug nfkd verb = str "em-irregular-verb-").
Proof.
  assert (Hslug : verb_slug nfkd verb
                  = str "em-irregular-verb-"
                      ++ strip_leading_hyphen (slugify nfkd (base verb))).
  { unfold verb_slug, slugify, re_sub_nonword.
    rewrite <- (re_sub_scan_strip _ (normalize_no_upper nfkd (base verb))).
    rewrite <- verb_prefix_scan. f_equal.
    unfold normalize, decode_ascii.
    rewrite nfkd_app, nfkd_ascii by (repeat constructor).
    unfold lower. rewrite map_app. reflexivity. }
  split; [exact Hslug|]. split.
  - rewrite Hslug. discriminate.
  - intros Hempty. rewrite Hslug, Hempty. reflexivity.
Qed.

End Concatenation.

End VerbSlugs.

Lemma nfkd_latin1_app (a b : text) :
  encode_ascii_ignore (nfkd_latin1 (a ++ b))
  = encode_ascii_ignore (nfkd_latin1 a) ++ encode_ascii_ignore (nfkd_latin1 b).
Proof.
  unfold encode_ascii_ignore, nfkd_latin1.
  rewrite flat_map_app, filter_app. reflexivity.
Qed.

(** ** The further properties at concrete inputs *)

Lemma slugify_fixed_points_witness :
  slugify nfkd_latin1 (str "-rock-solid-") = str "-rock-solid-".
Proof.
  apply (proj2 (slugify_fixed_points nfkd_latin1 nfkd_latin1_ascii _)).
  split; [repeat constructor | reflexivity].
Defined.

Lemma slugify_case_and_separators_witness :
  slugify nfkd_latin1 (str "Rock" ++ str "-" ++ str "Solid")
  = slugify nfkd_latin1 (str "rock" ++ str " _ " ++ str "solid").
Proof.
  apply (slugify_case_and_separators nfkd_latin1 nfkd_latin1_ascii);
    first [ discriminate | reflexivity | repeat constructor ].
Defined.

Lemma slugify_joined_words_witness :
  slugify nfkd_latin1 (join (str ", ") [str "Be"; str "caught"; str "2day"])
  = join [hyphen] (map lower [str "Be"; str "caught"; str "2day"])
  /\ slug_regex
       (slugify nfkd_latin1 (join (str ", ") [str "Be"; str "caught"; str "2day"]))
     = true.
Proof.
  destruct (slugify_joined_words nfkd_latin1 nfkd_latin1_ascii (str ", ")
              [str "Be"; str "caught"; str "2day"]) as [Hslug Hregex].
  - discriminate.
  - repeat constructor.
  - repeat constructor; discriminate.
  - split; [exact Hslug | apply Hregex; discriminate].
Defined.

Lemma verb_slug_prefix_witness :
  verb_slug nfkd_latin1 (mkVerb nihongo (str "was") (str "been"))
  = str "em-irregular-verb-"
  /\ verb_slug nfkd_latin1 (mkVerb (str " Be!") (str "was") (str "been"))
     = str "em-irregular-verb-be-".
Proof.
  split.
  - exact (proj2 (proj2
      (verb_slug_prefix nfkd_latin1 nfkd_latin1_ascii nfkd_latin1_app
         (mkVerb nihongo (str "was") (str "been")))) eq_refl).
  - exact (proj1
      (verb_slug_prefix nfkd_latin1 nfkd_latin1_ascii nfkd_latin1_app
         (mkVerb (str " Be!") (str "was") (str "been")))).
Defined.

Lemma verb_slug_simple_base_witness :
  verb_slug nfkd_latin1 (mkVerb (str "have") (str "had") (str "had"))
  = str "em-irregular-verb-" ++ str "have".
Proof.
  apply (proj1 (verb_slug_simple_base nfkd_latin1 nfkd_latin1_ascii)).
  repeat constructor.
Defined.

Lemma dict_scripts_agree_witness :
  verb_card_dict nfkd_latin1
    [ ("past_participle"%string, str "been"); ("note"%string, str "irregular");
      ("base"%string, str "be"); ("past_tense"%string, str "was/were") ]
  = inr (verb_card nfkd_latin1 (mkVerb (str "be") (str "was/were") (str "been"))).
Proof.
  apply (proj1 (dict_scripts_agree nfkd_latin1)); reflexivity.
Defined.

Lemma verbs_main_key_error_witness :
  verbs_main_dict nfkd_latin1
    (map verb_dict IRREGULAR_VERBS
       ++ [ ("base"%string, str "go"); ("past_participle"%string, str "gone") ]
       :: map verb_dict IRREGULAR_VERBS)
  = (verbs_main nfkd_latin1 IRREGULAR_VERBS, Some (KeyError "past_tense")).
Proof.
  apply (proj1 (proj2 (verbs_main_key_error nfkd_latin1 IRREGULAR_VERBS _ _)));
    reflexivity.
Defined.

Lemma expressions_main_key_error_witness :
  expressions_main_dict nfkd_latin1
    (map expr_dict EXPRESSIONS
       ++ [ ("fr-fr"%string, str "entre deux feux") ]
       :: map expr_dict EXPRESSIONS)
  = (expressions_main nfkd_latin1 EXPRESSIONS, Some (KeyError "en-en")).
Proof.
  apply (proj1 (expressions_main_key_error nfkd_latin1 EXPRESSIONS _ _)).
  reflexivity.
Defined.
